(** * The headless test runtime of makergame ([runtime/libtestergame.cpp])

    A shallow embedding of the runtime a makergame program is linked against
    when it is tested without SFML: the built-in functions the game logic may
    call, and the [main] driver that calls [global_create] once and then
    [global_step]/[global_draw] until [end_game] has been called or
    [max_steps] iterations have run. *)

From Stdlib Require Import ZArith List String Ascii Bool Lia Arith.
From Stdlib Require Import DecimalString.
From Equations Require Import Equations.
Import ListNotations.

Set Implicit Arguments.
Local Open Scope string_scope.

(** ** The C library

    [printf]'s [%f] conversion of a [double] belongs to the C library; the
    runtime only passes the value on.  The type of doubles and that
    conversion are an interface of the development. *)

Class Libc : Type := {
  double : Type;
  format_f : double -> string
}.

(** [%d] of an [int]: optional minus sign and decimal digits. *)
Definition format_d (x : Z) : string :=
  NilZero.string_of_int (Z.to_int x).

(** The newline character ending every format string of the file. *)
Definition nl : string := String (ascii_of_nat 10) EmptyString.

(** A [void *]: an address, [nullptr] being address 0. *)
Definition ptr : Type := Z.
Definition nullptr : ptr := 0%Z.

(** [static const int max_steps = 1000;] *)
Definition max_steps : Z := 1000.

(** The text [main] sends to [stderr] when the ceiling is reached: the two
    adjacent literals of the [fprintf] call, concatenated. *)
Definition failure_message : string :=
  "FAILURE: Exceed max number of steps allowed for test. "
  ++ "Did you forget to call end_game()?" ++ nl.

(** The three entry points of the game logic that [main] calls. *)
Inductive hook : Type := h_create | h_step | h_draw.

(** An entry of the invocation log: which entry point [main] called, and for
    [global_step] and [global_draw] the value [num_steps] had at the call. *)
Inductive hook_call : Type :=
| create_called
| step_called (n : Z)
| draw_called (n : Z).

Section Runtime.

Context {libc : Libc}.
(** The game logic's own memory (its globals). *)
Context {G : Type}.

(** ** Process state

    [game_ended] is the file's static flag, [num_steps] the local of [main],
    [stdout] and [stderr] the characters written so far, [mem] the memory of
    the game logic.  [log] is a ghost field: the entry points [main] has
    called so far, oldest first. *)
Record state : Type := mkState {
  game_ended : bool;
  num_steps : Z;
  stdout : string;
  stderr : string;
  mem : G;
  log : list hook_call
}.

Definition set_game_ended (b : bool) (s : state) : state :=
  mkState b (num_steps s) (stdout s) (stderr s) (mem s) (log s).
Definition set_num_steps (n : Z) (s : state) : state :=
  mkState (game_ended s) n (stdout s) (stderr s) (mem s) (log s).
Definition set_mem (g : G) (s : state) : state :=
  mkState (game_ended s) (num_steps s) (stdout s) (stderr s) g (log s).
Definition write_stdout (text : string) (s : state) : state :=
  mkState (game_ended s) (num_steps s) (stdout s ++ text) (stderr s) (mem s) (log s).
Definition write_stderr (text : string) (s : state) : state :=
  mkState (game_ended s) (num_steps s) (stdout s) (stderr s ++ text) (mem s) (log s).
Definition record (c : hook_call) (s : state) : state :=
  mkState (game_ended s) (num_steps s) (stdout s) (stderr s) (mem s) (log s ++ [c]).

(** A C function of the runtime: it returns a value and leaves a state. *)
Definition M (A : Type) : Type := state -> A * state.

(** ** The built-in functions, in the order of the source *)

(** [void print(int x) { printf("%d\n", x); }] *)
Definition print (x : Z) : M unit :=
  fun s => (tt, write_stdout (format_d x ++ nl) s).

(** [void printb(bool x) { if (x) printf("true\n"); else printf("false\n"); }] *)
Definition printb (x : bool) : M unit :=
  fun s => if x then (tt, write_stdout ("true" ++ nl) s)
           else (tt, write_stdout ("false" ++ nl) s).

(** [void print_float(double x) { printf("%f\n", x); }] *)
Definition print_float (x : double) : M unit :=
  fun s => (tt, write_stdout (format_f x ++ nl) s).

(** [void printstr(char *x) { printf("%s\n", x); }] *)
Definition printstr (x : string) : M unit :=
  fun s => (tt, write_stdout (x ++ nl) s).

(** [void *load_sound(const char *filename) { return nullptr; }] *)
Definition load_sound (filename : string) : M ptr :=
  fun s => (nullptr, s).

(** [void play_sound(void *sound) { }] *)
Definition play_sound (sound : ptr) : M unit :=
  fun s => (tt, s).

(** [void loop_sound(void *sound) { }] *)
Definition loop_sound (sound : ptr) : M unit :=
  fun s => (tt, s).

(** [void *load_image(const char *filename) { return nullptr; }] *)
Definition load_image (filename : string) : M ptr :=
  fun s => (nullptr, s).

(** [void set_sprite_position(void *s, double x, double y) { }] *)
Definition set_sprite_position (sprite : ptr) (x y : double) : M unit :=
  fun s => (tt, s).

(** [void draw_sprite(void *sprite) { }] *)
Definition draw_sprite (sprite : ptr) : M unit :=
  fun s => (tt, s).

(** [void end_game() { game_ended = true; }] *)
Definition end_game : M unit :=
  fun s => (tt, set_game_ended true s).

(** [bool key_pressed(int code) { return false; }] *)
Definition key_pressed (code : Z) : M bool :=
  fun s => (false, s).

(** ** Game logic

    The game logic is foreign code that reaches the process state only
    through the functions above.  A body of an entry point is a finite tree
    of calls to them: [Do c k] calls [c] and goes on as [k] of its result. *)
Inductive call : Type -> Type :=
| c_print (x : Z) : call unit
| c_printb (x : bool) : call unit
| c_print_float (x : double) : call unit
| c_printstr (x : string) : call unit
| c_load_sound (filename : string) : call ptr
| c_play_sound (sound : ptr) : call unit
| c_loop_sound (sound : ptr) : call unit
| c_load_image (filename : string) : call ptr
| c_set_sprite_position (sprite : ptr) (x y : double) : call unit
| c_draw_sprite (sprite : ptr) : call unit
| c_end_game : call unit
| c_key_pressed (code : Z) : call bool.

Inductive prog (A : Type) : Type :=
| Ret (a : A)
| Do (X : Type) (c : call X) (k : X -> prog A).

(** Each call runs the function of that name. *)
Definition exec {X : Type} (c : call X) : M X :=
  match c in call T return M T with
  | c_print x => print x
  | c_printb x => printb x
  | c_print_float x => print_float x
  | c_printstr x => printstr x
  | c_load_sound filename => load_sound filename
  | c_play_sound sound => play_sound sound
  | c_loop_sound sound => loop_sound sound
  | c_load_image filename => load_image filename
  | c_set_sprite_position sprite x y => set_sprite_position sprite x y
  | c_draw_sprite sprite => draw_sprite sprite
  | c_end_game => end_game
  | c_key_pressed code => key_pressed code
  end.

Fixpoint run {A : Type} (p : prog A) : M A :=
  match p with
  | Ret a => fun s => (a, s)
  | Do c k => fun s => let (x, s') := exec c s in run (k x) s'
  end.

(** Whether a call is the one to [end_game]. *)
Definition is_end_game {X : Type} (c : call X) : bool :=
  match c with
  | c_end_game => true
  | _ => false
  end.

(** The value a call returns (none of them depends on the state). *)
Definition answer {X : Type} (c : call X) : X :=
  match c in call T return T with
  | c_load_sound _ | c_load_image _ => nullptr
  | c_key_pressed _ => false
  | _ => tt
  end.

(** Whether running [p] calls [end_game] at least once. *)
Fixpoint calls_end_game {A : Type} (p : prog A) : bool :=
  match p with
  | Ret _ => false
  | Do c k => is_end_game c || calls_end_game (k (answer c))
  end.

(** The three entry points, each from the game's memory to a body that
    returns the memory it leaves, and the memory the process starts with. *)
Record game : Type := mkGame {
  global_create : G -> prog G;
  global_step : G -> prog G;
  global_draw : G -> prog G;
  initial_mem : G
}.

Definition body (gm : game) (h : hook) : G -> prog G :=
  match h with
  | h_create => global_create gm
  | h_step => global_step gm
  | h_draw => global_draw gm
  end.

(** A call of an entry point by [main]: logged, then run on the game's
    memory, which is replaced by what the body leaves. *)
Definition invoke (gm : game) (h : hook) (s : state) : state :=
  let s0 := record (match h with
                    | h_create => create_called
                    | h_step => step_called (num_steps s)
                    | h_draw => draw_called (num_steps s)
                    end) s in
  let (g, s1) := run (body gm h (mem s0)) s0 in
  set_mem g s1.

(** ** The driver *)

(** One pass through the loop body up to and including [++num_steps]. *)
Definition cycle (gm : game) (s : state) : state :=
  let s1 := invoke gm h_step s in
  let s2 := invoke gm h_draw s1 in
  set_num_steps (num_steps s2 + 1) s2.

(** [num_steps] is a local of [main]: no built-in function, hence no entry
    point, changes it.  The loop's termination rests on this. *)
Lemma exec_num_steps (X : Type) (c : call X) (s : state) :
  num_steps (snd (exec c s)) = num_steps s.
Proof. destruct c; try reflexivity. destruct x; reflexivity. Qed.

Lemma run_num_steps (A : Type) (p : prog A) (s : state) :
  num_steps (snd (run p s)) = num_steps s.
Proof.
  revert s. induction p as [a | X c k IH]; intro s; simpl.
  - reflexivity.
  - pose proof (exec_num_steps c s) as E.
    destruct (exec c s) as [x s']. simpl in E. rewrite IH. exact E.
Qed.

Lemma invoke_num_steps (gm : game) (h : hook) (s : state) :
  num_steps (invoke gm h s) = num_steps s.
Proof.
  unfold invoke.
  match goal with |- context [run ?p ?s0] =>
    pose proof (run_num_steps p s0) as E; destruct (run p s0) as [g s1] end.
  simpl in *. exact E.
Qed.

Lemma cycle_num_steps (gm : game) (s : state) :
  num_steps (cycle gm s) = (num_steps s + 1)%Z.
Proof.
  unfold cycle. simpl. now rewrite !invoke_num_steps.
Qed.

(** How far [num_steps] is from the ceiling. *)
Definition steps_left (s : state) : nat :=
  Z.to_nat (max_steps - num_steps s).

Lemma steps_left_cycle (gm : game) (s : state) :
  ~ (num_steps (cycle gm s) >= max_steps)%Z ->
  (steps_left (cycle gm s) < steps_left s)%nat.
Proof.
  unfold steps_left. rewrite cycle_num_steps. lia.
Qed.

#[local] Opaque cycle steps_left.

(** The [while] loop of [main], entered at its condition.  The result is the
    exit status together with the state the process ends in.

    [[
      while (!game_ended) {
        global_step();
        global_draw();
        ++num_steps;
        if (num_steps >= max_steps) {
          fprintf(stderr, "FAILURE: ...\n");
          return 1;
        }
      }
      return 0;
    ]]

    Each pass that does not return brings [num_steps] closer to
    [max_steps]. *)
Equations? loop (gm : game) (s : state) : Z * state
  by wf (steps_left s) lt :=
  loop gm s with game_ended s := {
    | true := (0%Z, s)
    | false with Z_ge_dec (num_steps (cycle gm s)) max_steps := {
      | left _ := (1%Z, write_stderr failure_message (cycle gm s))
      | right _ := loop gm (cycle gm s) } }.
Proof.
  now apply steps_left_cycle.
Qed.

#[local] Transparent cycle steps_left.

(** The state the process starts in: the flag's initialiser is [false],
    nothing has been written.  [num_steps] is not declared yet; its field
    holds 0 until [main] initialises it. *)
Definition start (gm : game) : state :=
  mkState false 0 "" "" (initial_mem gm) [].

(** The state when the loop is first reached: [global_create()] has been
    called and [num_steps] initialised to 0. *)
Definition entry (gm : game) : state :=
  set_num_steps 0 (invoke gm h_create (start gm)).

(** [int main()] *)
Definition main (gm : game) : Z * state :=
  loop gm (entry gm).

(** The state after [global_create] and [n] further passes of the loop body,
    were none of them to leave the loop. *)
Definition after_cycles (gm : game) (n : nat) : state :=
  Nat.iter n (cycle gm) (entry gm).

(** Whether the flag is clear in [s] and after each of the next [n - 1]
    passes from it. *)
Fixpoint clear_until (gm : game) (n : nat) (s : state) : bool :=
  match n with
  | O => true
  | S n' => negb (game_ended s) && clear_until gm n' (cycle gm s)
  end.

(** The log of [n] passes: [global_step] then [global_draw], both called
    while [num_steps] is the number of passes completed before. *)
Definition passes_log (n : nat) : list hook_call :=
  flat_map (fun i => [step_called (Z.of_nat i); draw_called (Z.of_nat i)]) (seq 0 n).

(** Pass [k] is the first to leave the flag set ([k = 0]: it is set when the
    loop is reached). *)
Definition first_ended_in (gm : game) (k : nat) : Prop :=
  (forall j, (j < k)%nat -> game_ended (after_cycles gm j) = false)
  /\ game_ended (after_cycles gm k) = true.

(** Whether the game logic calls [end_game] in pass [j], that is in the
    call of [global_step] or in the call of [global_draw] numbered [j] from
    1; pass 0 stands for the call of [global_create]. *)
Definition ends_in_pass (gm : game) (j : nat) : bool :=
  match j with
  | O => calls_end_game (global_create gm (initial_mem gm))
  | S i =>
      let s := after_cycles gm i in
      calls_end_game (global_step gm (mem s))
      || calls_end_game (global_draw gm (mem (invoke gm h_step s)))
  end.

(** The game logic calls [end_game] for the first time in pass [k]. *)
Definition first_called_in (gm : game) (k : nat) : Prop :=
  (forall j, (j < k)%nat -> ends_in_pass gm j = false)
  /\ ends_in_pass gm k = true.

(** What a caller can tell of a state: the flag, the counter and the two
    streams are those of [s]. *)
Definition same_observables (s s' : state) : Prop :=
  game_ended s' = game_ended s
  /\ num_steps s' = num_steps s
  /\ stdout s' = stdout s
  /\ stderr s' = stderr s.

End Runtime.

(** ** Sample games *)

(** A C library for the sample runs: a double is given by the text [%f]
    prints for it. *)
#[local] Instance sample_libc : Libc := {| double := string; format_f := fun x => x |}.

(** All three entry points empty. *)
Definition idle_game : game (G := unit) :=
  mkGame (fun g => Ret g) (fun g => Ret g) (fun g => Ret g) tt.

(** The memory counts the calls of [global_step]; the call numbered [n]
    (from 1) calls [end_game]. *)
Definition ends_at_step (n : nat) : game (G := nat) :=
  mkGame (fun g => Ret g)
         (fun g => if Nat.eqb (S g) n
                   then Do c_end_game (fun _ => Ret (S g))
                   else Ret (S g))
         (fun g => Ret g)
         O.

(** [global_create] calls [end_game]. *)
Definition ends_at_create : game (G := unit) :=
  mkGame (fun g => Do c_end_game (fun _ => Ret g))
         (fun g => Ret g) (fun g => Ret g) tt.

(** A game that uses the other built-in functions: it loads a sound and
    plays what it got, prints the number of the step, draws a sprite, and
    ends the game twice in its third step. *)
Definition noisy_game : game (G := Z) :=
  mkGame (fun g => Do (c_load_sound "tune.ogg") (fun h =>
                   Do (c_play_sound h) (fun _ =>
                   Do (c_printb (Z.eqb h nullptr)) (fun _ => Ret g))))
         (fun g => Do (c_print g) (fun _ =>
                   Do (c_key_pressed 57) (fun pressed =>
                   if pressed then Do (c_printstr "space") (fun _ => Ret (g + 1)%Z)
                   else if Z.eqb g 2
                        then Do c_end_game (fun _ =>
                             Do c_end_game (fun _ => Ret (g + 1)%Z))
                        else Ret (g + 1)%Z)))
         (fun g => Do (c_load_image "ship.png") (fun h =>
                   Do (c_set_sprite_position h "1.500000" "-2.000000") (fun _ =>
                   Do (c_draw_sprite h) (fun _ =>
                   Do (c_print_float "0.250000") (fun _ => Ret g)))))
         0%Z.

(** ** What the built-in functions leave alone *)

Unset Implicit Arguments.

Section Properties.

Context {libc : Libc} {G : Type}.
Implicit Types (s : state (G := G)) (gm : game (G := G)).

(** Lifts a fact about one call to a whole body, the fact being stated
    about [snd (exec c s)] by the lemma [L]. *)
Ltac by_calls L :=
  let s := fresh "s" in
  intros ? p; induction p as [a | X c k IH]; intro s; simpl;
  [ try reflexivity
  | pose proof (L X c s) as E; destruct (exec c s) as [x s']; simpl in E;
    rewrite IH, E; try reflexivity ].

Lemma exec_stderr (X : Type) (c : call X) s :
  stderr (snd (exec c s)) = stderr s.
Proof. destruct c; try reflexivity. destruct x; reflexivity. Qed.

Lemma exec_log (X : Type) (c : call X) s :
  log (snd (exec c s)) = log s.
Proof. destruct c; try reflexivity. destruct x; reflexivity. Qed.

Lemma exec_game_ended (X : Type) (c : call X) s :
  game_ended (snd (exec c s)) = game_ended s || is_end_game c.
Proof.
  destruct c; simpl; rewrite ?orb_false_r, ?orb_true_r; try reflexivity.
  destruct x; reflexivity.
Qed.

Lemma exec_answer (X : Type) (c : call X) s :
  fst (exec c s) = answer c.
Proof. destruct c; try reflexivity. destruct x; reflexivity. Qed.

Lemma run_stderr : forall (A : Type) (p : prog A) s,
  stderr (snd (run p s)) = stderr s.
Proof. by_calls exec_stderr. Qed.

Lemma run_log : forall (A : Type) (p : prog A) s,
  log (snd (run p s)) = log s.
Proof. by_calls exec_log. Qed.

Lemma run_game_ended : forall (A : Type) (p : prog A) s,
  game_ended (snd (run p s)) = game_ended s || calls_end_game p.
Proof.
  intros A p. induction p as [a | X c k IH]; intro s; simpl.
  - now rewrite orb_false_r.
  - pose proof (exec_game_ended X c s) as E. pose proof (exec_answer X c s) as F.
    destruct (exec c s) as [x s']. simpl in E, F. subst x.
    rewrite IH, E. now rewrite orb_assoc.
Qed.

(** ** Calls of the entry points *)

Definition entry_of (h : hook) (n : Z) : hook_call :=
  match h with
  | h_create => create_called
  | h_step => step_called n
  | h_draw => draw_called n
  end.

Ltac open_invoke :=
  unfold invoke;
  match goal with |- context [run ?p ?s0] =>
    pose proof (run_stderr _ p s0);
    pose proof (run_log _ p s0);
    pose proof (run_game_ended _ p s0);
    destruct (run p s0) as [? ?]
  end; simpl in *.

Lemma invoke_stderr gm h s : stderr (invoke gm h s) = stderr s.
Proof. open_invoke. assumption. Qed.

Lemma invoke_log gm h s :
  log (invoke gm h s) = (log s ++ [entry_of h (num_steps s)])%list.
Proof. open_invoke. destruct h; assumption. Qed.

Lemma invoke_game_ended gm h s :
  game_ended (invoke gm h s) = game_ended s || calls_end_game (body gm h (mem s)).
Proof. open_invoke. assumption. Qed.

(** ** One pass of the loop body *)

Lemma cycle_stderr gm s : stderr (cycle gm s) = stderr s.
Proof. unfold cycle. simpl. now rewrite !invoke_stderr. Qed.

Lemma cycle_log gm s :
  log (cycle gm s)
  = (log s ++ [step_called (num_steps s); draw_called (num_steps s)])%list.
Proof.
  unfold cycle. simpl. rewrite !invoke_log, invoke_num_steps, <- app_assoc.
  reflexivity.
Qed.

Lemma cycle_game_ended gm s :
  game_ended (cycle gm s)
  = game_ended s
    || calls_end_game (global_step gm (mem s))
    || calls_end_game (global_draw gm (mem (invoke gm h_step s))).
Proof. unfold cycle. simpl. now rewrite !invoke_game_ended. Qed.

(** ** The states the loop goes through *)

Lemma after_cycles_S gm n :
  after_cycles gm (S n) = cycle gm (after_cycles gm n).
Proof. reflexivity. Qed.

Lemma iter_cycle_shift gm n s :
  Nat.iter n (cycle gm) (cycle gm s) = Nat.iter (S n) (cycle gm) s.
Proof. symmetry. apply Nat.iter_succ_r. Qed.

Lemma passes_log_S n :
  passes_log (S n)
  = (passes_log n ++ [step_called (Z.of_nat n); draw_called (Z.of_nat n)])%list.
Proof.
  unfold passes_log. rewrite seq_S, flat_map_app. simpl.
  reflexivity.
Qed.

Lemma entry_num_steps gm : num_steps (entry gm) = 0%Z.
Proof. reflexivity. Qed.

Lemma entry_stderr gm : stderr (entry gm) = "".
Proof. unfold entry. simpl. now rewrite invoke_stderr. Qed.

Lemma entry_log gm : log (entry gm) = [create_called].
Proof. unfold entry. simpl. now rewrite invoke_log. Qed.

Lemma entry_game_ended gm :
  game_ended (entry gm) = calls_end_game (global_create gm (initial_mem gm)).
Proof. unfold entry. simpl. now rewrite invoke_game_ended. Qed.

Lemma after_cycles_num_steps gm n :
  num_steps (after_cycles gm n) = Z.of_nat n.
Proof.
  induction n as [| n IH].
  - reflexivity.
  - rewrite after_cycles_S, cycle_num_steps, IH. lia.
Qed.

Lemma after_cycles_stderr gm n : stderr (after_cycles gm n) = "".
Proof.
  induction n as [| n IH].
  - apply entry_stderr.
  - now rewrite after_cycles_S, cycle_stderr.
Qed.

Lemma after_cycles_log gm n :
  log (after_cycles gm n) = create_called :: passes_log n.
Proof.
  induction n as [| n IH].
  - apply entry_log.
  - rewrite after_cycles_S, cycle_log, IH, after_cycles_num_steps, passes_log_S.
    reflexivity.
Qed.

Lemma passes_log_no_create n : ~ In create_called (passes_log n).
Proof.
  unfold passes_log. rewrite in_flat_map. intros [i [_ [H | [H | []]]]]; discriminate H.
Qed.

Lemma after_cycles_flag_stays gm j d :
  game_ended (after_cycles gm j) = true ->
  game_ended (after_cycles gm (j + d)) = true.
Proof.
  intro H. induction d as [| d IH].
  - now rewrite Nat.add_0_r.
  - rewrite Nat.add_succ_r, after_cycles_S, cycle_game_ended, IH. reflexivity.
Qed.

(** The flag after a pass: set before, or set by a call in that pass. *)
Lemma flag_after_pass gm n :
  game_ended (after_cycles gm (S n))
  = game_ended (after_cycles gm n) || ends_in_pass gm (S n).
Proof.
  rewrite after_cycles_S, cycle_game_ended, <- orb_assoc. reflexivity.
Qed.

Lemma flag_clear_iff_no_call gm n :
  (forall j, (j <= n)%nat -> game_ended (after_cycles gm j) = false)
  <-> (forall j, (j <= n)%nat -> ends_in_pass gm j = false).
Proof.
  induction n as [| n [IH1 IH2]].
  - split; intros H j Hj; assert (j = 0%nat) as -> by lia.
    + rewrite <- (H 0%nat Hj). symmetry. apply entry_game_ended.
    + rewrite <- (H 0%nat Hj). apply entry_game_ended.
  - split; intros H j Hj.
    + destruct (Nat.eq_dec j (S n)) as [-> | Hne].
      * pose proof (H (S n) (Nat.le_refl _)) as E.
        rewrite flag_after_pass in E. now apply orb_false_iff in E.
      * apply IH1; [| lia]. intros i Hi. apply H. lia.
    + destruct (Nat.eq_dec j (S n)) as [-> | Hne].
      * rewrite flag_after_pass, (H (S n) (Nat.le_refl _)), orb_false_r.
        apply IH2; [| lia]. intros i Hi. apply H. lia.
      * apply IH2; [| lia]. intros i Hi. apply H. lia.
Qed.

(** The first pass that calls [end_game] is the first to leave the flag
    set. *)
Lemma first_called_iff_first_ended gm k :
  first_called_in gm k <-> first_ended_in gm k.
Proof.
  unfold first_called_in, first_ended_in. destruct k as [| k].
  - change (ends_in_pass gm 0) with (calls_end_game (global_create gm (initial_mem gm))).
    change (after_cycles gm 0) with (entry gm). rewrite entry_game_ended.
    split; intros [_ H]; (split; [intros j Hj; lia | exact H]).
  - pose proof (flag_clear_iff_no_call gm k) as [F1 F2].
    rewrite flag_after_pass. split; intros [Hc Hk].
    + assert (forall j, (j <= k)%nat -> game_ended (after_cycles gm j) = false) as Hf
        by (apply F2; intros j Hj; apply Hc; lia).
      split; [intros j Hj; apply Hf; lia | now rewrite Hk, orb_true_r].
    + assert (forall j, (j <= k)%nat -> ends_in_pass gm j = false) as Hf
        by (apply F1; intros j Hj; apply Hc; lia).
      split; [intros j Hj; apply Hf; lia |].
      now rewrite (Hc k (Nat.lt_succ_diag_r k)) in Hk.
Qed.

(** ** The three ways through the loop *)

Lemma loop_done gm s :
  game_ended s = true -> loop gm s = (0%Z, s).
Proof. intro H. rewrite loop_equation_1, H. reflexivity. Qed.

Lemma loop_fail gm s :
  game_ended s = false ->
  (num_steps (cycle gm s) >= max_steps)%Z ->
  loop gm s = (1%Z, write_stderr failure_message (cycle gm s)).
Proof.
  intros H Hc. rewrite loop_equation_1, H. simp loop.
  destruct (Z_ge_dec _ _) as [g | n]; simp loop; [reflexivity | contradiction].
Qed.

Lemma loop_next gm s :
  game_ended s = false ->
  (num_steps (cycle gm s) < max_steps)%Z ->
  loop gm s = loop gm (cycle gm s).
Proof.
  intros H Hc. rewrite loop_equation_1, H. simp loop.
  destruct (Z_ge_dec _ _) as [g | n]; simp loop; [lia | reflexivity].
Qed.

(** The loop leaves with 0 at the first state whose flag is set, provided
    the counter has stayed below the ceiling on the way. *)
Lemma loop_reaches_flag gm : forall k s,
  (forall j, (j < k)%nat -> game_ended (Nat.iter j (cycle gm) s) = false) ->
  game_ended (Nat.iter k (cycle gm) s) = true ->
  (k = 0%nat \/ num_steps s + Z.of_nat k < max_steps)%Z ->
  loop gm s = (0%Z, Nat.iter k (cycle gm) s).
Proof.
  induction k as [| k IH]; intros s Hclear Hset Hlt.
  - now apply loop_done.
  - destruct Hlt as [Hlt | Hlt]; [discriminate Hlt |].
    rewrite loop_next.
    + rewrite <- iter_cycle_shift. apply IH.
      * intros j Hj. rewrite iter_cycle_shift. apply Hclear. lia.
      * now rewrite iter_cycle_shift.
      * right. rewrite cycle_num_steps. lia.
    + apply (Hclear 0%nat). lia.
    + rewrite cycle_num_steps. lia.
Qed.

(** The loop leaves with 1 when the counter gets to the ceiling, the flag
    having been clear at every test of the loop condition. *)
Lemma loop_reaches_ceiling gm : forall k s,
  (forall j, (j <= k)%nat -> game_ended (Nat.iter j (cycle gm) s) = false) ->
  (num_steps s + Z.of_nat (S k) = max_steps)%Z ->
  loop gm s = (1%Z, write_stderr failure_message (Nat.iter (S k) (cycle gm) s)).
Proof.
  induction k as [| k IH]; intros s Hclear Hk.
  - apply loop_fail.
    + apply (Hclear 0%nat). lia.
    + rewrite cycle_num_steps. lia.
  - rewrite loop_next.
    + rewrite <- iter_cycle_shift. apply IH.
      * intros j Hj. rewrite iter_cycle_shift. apply Hclear. lia.
      * rewrite cycle_num_steps. lia.
    + apply (Hclear 0%nat). lia.
    + rewrite cycle_num_steps. lia.
Qed.

Lemma main_success gm k :
  (k < 1000)%nat -> first_ended_in gm k -> main gm = (0%Z, after_cycles gm k).
Proof.
  intros Hk [Hclear Hset]. unfold main, after_cycles.
  apply loop_reaches_flag; try assumption.
  right. rewrite entry_num_steps. unfold max_steps. lia.
Qed.

Lemma main_failure gm :
  (forall j, (j < 1000)%nat -> game_ended (after_cycles gm j) = false) ->
  main gm = (1%Z, write_stderr failure_message (after_cycles gm 1000)).
Proof.
  intro Hclear. unfold main, after_cycles.
  apply (loop_reaches_ceiling gm 999).
  - intros j Hj. apply Hclear. lia.
  - rewrite entry_num_steps. reflexivity.
Qed.

(** The state a failed run ends in, field by field. *)
Lemma failed_num_steps (z : Z) (text : string) s :
  num_steps (snd (z, write_stderr text s)) = num_steps s.
Proof. reflexivity. Qed.

Lemma failed_log (z : Z) (text : string) s :
  log (snd (z, write_stderr text s)) = log s.
Proof. reflexivity. Qed.

Lemma failed_stderr (z : Z) (text : string) s :
  stderr (snd (z, write_stderr text s)) = stderr s ++ text.
Proof. reflexivity. Qed.

Lemma failed_state (z : Z) s' : snd (z, s') = s'.
Proof. reflexivity. Qed.

Lemma failed_status (z : Z) s' : fst (z, s') = z.
Proof. reflexivity. Qed.

(** A first call of [end_game] in pass 1000 comes too late. *)
Lemma first_called_in_pass_1000 gm :
  first_called_in gm 1000 ->
  main gm = (1%Z, write_stderr failure_message (after_cycles gm 1000)).
Proof.
  intro H. apply first_called_iff_first_ended in H as [Hclear _].
  now apply main_failure.
Qed.

(** Up to any bound, either the flag stays clear or there is a first pass
    after which it is set. *)
Lemma clear_or_first_ended gm n :
  (forall j, (j < n)%nat -> game_ended (after_cycles gm j) = false)
  \/ (exists k, (k < n)%nat /\ first_ended_in gm k).
Proof.
  induction n as [| n [IH | [k [Hk Hf]]]].
  - left. intros j Hj. lia.
  - destruct (game_ended (after_cycles gm n)) eqn:E.
    + right. exists n. split; [lia | split; assumption].
    + left. intros j Hj. destruct (Nat.eq_dec j n) as [-> | Hne]; [assumption |].
      apply IH. lia.
  - right. exists k. split; [lia | assumption].
Qed.

(** [main] always returns, in one of two ways. *)
Lemma main_cases gm :
  (exists k, (k < 1000)%nat /\ first_ended_in gm k
             /\ main gm = (0%Z, after_cycles gm k))
  \/ ((forall j, (j < 1000)%nat -> game_ended (after_cycles gm j) = false)
      /\ main gm = (1%Z, write_stderr failure_message (after_cycles gm 1000))).
Proof.
  destruct (clear_or_first_ended gm 1000) as [Hclear | [k [Hk Hf]]].
  - right. split; [assumption | now apply main_failure].
  - left. exists k. repeat split; try assumption; try apply Hf.
    now apply main_success.
Qed.

Lemma clear_until_sound gm : forall n s,
  clear_until gm n s = true ->
  forall j, (j < n)%nat -> game_ended (Nat.iter j (cycle gm) s) = false.
Proof.
  induction n as [| n IH]; intros s H j Hj; [lia |].
  simpl in H. apply andb_true_iff in H as [H0 H1].
  destruct j as [| j].
  - simpl. now apply negb_true_iff.
  - rewrite <- iter_cycle_shift. apply IH; [assumption | lia].
Qed.

(** [num_steps] stays within [0, max_steps], far from the ends of [int]. *)
Lemma num_steps_in_range gm :
  (0 <= num_steps (snd (main gm)) <= max_steps)%Z.
Proof.
  destruct (main_cases gm) as [[k [Hk [_ E]]] | [_ E]]; rewrite E.
  - rewrite failed_state, after_cycles_num_steps. unfold max_steps. lia.
  - rewrite failed_num_steps, after_cycles_num_steps. unfold max_steps. lia.
Qed.

(** ** The built-in functions *)

(** C7: [load_sound] and [load_image] return the null handle for every file
    name, in every state, and change nothing; a body that calls one of them
    goes on with [nullptr]. *)
Theorem loads_return_null (filename : string) s :
  load_sound filename s = (nullptr, s)
  /\ load_image filename s = (nullptr, s)
  /\ (forall (A : Type) (k : ptr -> prog A),
        run (Do (c_load_sound filename) k) s = run (k nullptr) s
        /\ run (Do (c_load_image filename) k) s = run (k nullptr) s).
Proof. repeat split. Qed.

(** C8: [key_pressed] returns [false] for every key code, negative, zero or
    large, in every state, and changes nothing; a body that calls it goes on
    with [false]. *)
Theorem key_pressed_false (code : Z) s :
  key_pressed code s = (false, s)
  /\ (forall (A : Type) (k : bool -> prog A),
        run (Do (c_key_pressed code) k) s = run (k false) s).
Proof. split; reflexivity. Qed.

(** C9: [play_sound], [loop_sound], [set_sprite_position] and [draw_sprite]
    take any handle, [nullptr] included, and do nothing: the state they
    leave is the state they were called in, so the flag, [num_steps],
    [stdout] and [stderr] are as before. *)
Theorem no_ops_change_nothing (handle : ptr) (x y : double) s :
  (play_sound handle s = (tt, s)
   /\ loop_sound handle s = (tt, s)
   /\ set_sprite_position handle x y s = (tt, s)
   /\ draw_sprite handle s = (tt, s))
  /\ (same_observables s (snd (play_sound handle s))
      /\ same_observables s (snd (loop_sound handle s))
      /\ same_observables s (snd (set_sprite_position handle x y s))
      /\ same_observables s (snd (draw_sprite handle s))).
Proof. unfold same_observables. repeat split. Qed.

(** ** The flag *)

(** C4: the flag is [false] when the process starts; [end_game] sets it,
    whatever it was; every other built-in function leaves it as it is, so a
    body never clears it, a call of an entry point never clears it, and once
    it is set after some pass it is set after every later one. *)
Theorem game_ended_monotone :
  (forall gm, game_ended (start gm) = false)
  /\ (forall s, game_ended (snd (end_game s)) = true)
  /\ (forall (X : Type) (c : call X) s,
        game_ended (snd (exec c s)) = game_ended s || is_end_game c)
  /\ (forall (A : Type) (p : prog A) s,
        game_ended (snd (run p s)) = game_ended s || calls_end_game p)
  /\ (forall gm h s,
        game_ended (invoke gm h s)
        = game_ended s || calls_end_game (body gm h (mem s)))
  /\ (forall gm j d,
        implb (game_ended (after_cycles gm j))
              (game_ended (after_cycles gm (j + d))) = true).
Proof.
  split; [reflexivity |]. split; [reflexivity |].
  split; [apply exec_game_ended |]. split; [apply run_game_ended |].
  split; [intros; apply invoke_game_ended |].
  intros gm j d. destruct (game_ended (after_cycles gm j)) eqn:E; [| reflexivity].
  cbn [implb]. now apply after_cycles_flag_stays.
Qed.

(** ** The driver *)

(** C1 (amended): at the end of a pass the ceiling is tested first and the
    flag second.  When the loop condition has held before each of the first
    [n] passes, then after pass [n]: if that was pass 1000, [main] writes
    the message and returns 1, whether or not the flag was set during that
    pass; if it was an earlier pass and the flag is set, [main] returns 0. *)
Theorem ceiling_checked_before_flag gm (n : nat)
  (Hn : (1 <= n <= 1000)%nat)
  (Hclear : forall j, (j < n)%nat -> game_ended (after_cycles gm j) = false) :
  (n = 1000%nat ->
     main gm = (1%Z, write_stderr failure_message (after_cycles gm n)))
  /\ ((n < 1000)%nat -> game_ended (after_cycles gm n) = true ->
       main gm = (0%Z, after_cycles gm n)).
Proof.
  split.
  - intros ->. now apply main_failure.
  - intros Hlt Hset. apply main_success; [assumption | split; assumption].
Qed.

(** C2: when [end_game] is first called in pass [k] and [k < 1000], [main]
    returns 0 after exactly [k] passes, each a call of [global_step]
    followed by one of [global_draw], and nothing is written to [stderr]. *)
Theorem ends_within_ceiling gm (k : nat)
  (Hk : (k < 1000)%nat)
  (Hfirst : first_called_in gm k) :
  fst (main gm) = 0%Z
  /\ snd (main gm) = after_cycles gm k
  /\ num_steps (snd (main gm)) = Z.of_nat k
  /\ log (snd (main gm)) = create_called :: passes_log k
  /\ stderr (snd (main gm)) = "".
Proof.
  apply first_called_iff_first_ended in Hfirst.
  rewrite (main_success gm k Hk Hfirst). cbn [fst snd].
  split; [reflexivity |]. split; [reflexivity |].
  split; [apply after_cycles_num_steps |].
  split; [apply after_cycles_log | apply after_cycles_stderr].
Qed.

(** C3: when the game logic never calls [end_game], neither in
    [global_create] nor in any pass, [main] returns 1 after exactly 1000
    passes and [stderr] holds the message line and nothing else. *)
Theorem never_ended gm
  (Hnever : forall j, ends_in_pass gm j = false) :
  fst (main gm) = 1%Z
  /\ num_steps (snd (main gm)) = 1000%Z
  /\ log (snd (main gm)) = create_called :: passes_log 1000
  /\ stderr (snd (main gm))
     = "FAILURE: Exceed max number of steps allowed for test. Did you forget to call end_game()?"
       ++ nl.
Proof.
  rewrite main_failure
    by (intros j _; apply (flag_clear_iff_no_call gm j); [intros; apply Hnever | lia]).
  rewrite failed_status, failed_num_steps, failed_log, failed_stderr.
  rewrite after_cycles_num_steps, after_cycles_log, after_cycles_stderr.
  repeat split.
Qed.

(** C10: when [global_create] calls [end_game], [main] returns 0 without a
    single pass: [global_create] is the only entry point called, and nothing
    is written to [stderr]. *)
Theorem ended_in_create gm
  (Hcreate : calls_end_game (global_create gm (initial_mem gm)) = true) :
  fst (main gm) = 0%Z
  /\ log (snd (main gm)) = [create_called]
  /\ num_steps (snd (main gm)) = 0%Z
  /\ stderr (snd (main gm)) = "".
Proof.
  unfold main. rewrite loop_done by now rewrite entry_game_ended.
  cbn [fst snd].
  split; [reflexivity |]. split; [apply entry_log |].
  split; [apply entry_num_steps | apply entry_stderr].
Qed.

End Properties.

(** ** Sample runs *)

Example run_ends_at_step_5 :
  fst (main (ends_at_step 5)) = 0%Z
  /\ num_steps (snd (main (ends_at_step 5))) = 5%Z
  /\ stderr (snd (main (ends_at_step 5))) = "".
Proof. vm_compute. repeat split. Qed.

Example run_ends_at_step_999 :
  fst (main (ends_at_step 999)) = 0%Z
  /\ num_steps (snd (main (ends_at_step 999))) = 999%Z.
Proof. vm_compute. repeat split. Qed.

Example run_idle_game :
  fst (main idle_game) = 1%Z
  /\ num_steps (snd (main idle_game)) = 1000%Z
  /\ stderr (snd (main idle_game)) = failure_message.
Proof. vm_compute. repeat split. Qed.

Example run_noisy_game :
  fst (main noisy_game) = 0%Z
  /\ log (snd (main noisy_game))
     = [create_called; step_called 0; draw_called 0; step_called 1;
        draw_called 1; step_called 2; draw_called 2]
  /\ stdout (snd (main noisy_game))
     = "true" ++ nl ++ "0" ++ nl ++ "0.250000" ++ nl ++ "1" ++ nl
       ++ "0.250000" ++ nl ++ "2" ++ nl ++ "0.250000" ++ nl
  /\ stderr (snd (main noisy_game)) = "".
Proof. vm_compute. repeat split. Qed.

Example format_d_samples :
  format_d 0 = "0" /\ format_d 42 = "42" /\ format_d (-7) = "-7".
Proof. vm_compute. repeat split. Qed.

(** ** The claims at the sample games *)

(** C1, as the specification words it, fails on the game whose step 1000
    calls [end_game]: the flag is clear after each of the first 999 passes
    and set after pass 1000, where [num_steps] is [max_steps]; [main] then
    returns 1, not 0, and writes the message. *)
Lemma flag_set_in_pass_1000_fails :
  first_called_in (ends_at_step 1000) 1000
  /\ num_steps (after_cycles (ends_at_step 1000) 1000) = max_steps
  /\ fst (main (ends_at_step 1000)) = 1%Z
  /\ fst (main (ends_at_step 1000)) <> 0%Z
  /\ stderr (snd (main (ends_at_step 1000))) = failure_message.
Proof.
  split; [apply first_called_iff_first_ended; split |].
  - apply (clear_until_sound (ends_at_step 1000) 1000 (entry (ends_at_step 1000))).
    vm_compute. reflexivity.
  - vm_compute. reflexivity.
  - vm_compute. repeat split. discriminate.
Qed.

Lemma ceiling_checked_before_flag_witness :
  game_ended (after_cycles (ends_at_step 1000) 1000) = true
  /\ main (ends_at_step 1000)
     = (1%Z, write_stderr failure_message (after_cycles (ends_at_step 1000) 1000)).
Proof.
  split; [vm_compute; reflexivity |].
  refine (proj1 (ceiling_checked_before_flag (ends_at_step 1000) 1000 _ _) eq_refl).
  - lia.
  - apply (clear_until_sound (ends_at_step 1000) 1000 (entry (ends_at_step 1000))).
    vm_compute. reflexivity.
Defined.

Lemma ends_within_ceiling_witness :
  fst (main (ends_at_step 5)) = 0%Z
  /\ snd (main (ends_at_step 5)) = after_cycles (ends_at_step 5) 5
  /\ num_steps (snd (main (ends_at_step 5))) = 5%Z
  /\ log (snd (main (ends_at_step 5))) = create_called :: passes_log 5
  /\ stderr (snd (main (ends_at_step 5))) = "".
Proof.
  apply (ends_within_ceiling (ends_at_step 5) 5).
  - lia.
  - split.
    + intros j Hj.
      do 5 (destruct j as [| j]; [vm_compute; reflexivity |]). lia.
    + vm_compute. reflexivity.
Defined.

Lemma never_ended_witness :
  fst (main idle_game) = 1%Z
  /\ num_steps (snd (main idle_game)) = 1000%Z
  /\ log (snd (main idle_game)) = create_called :: passes_log 1000
  /\ stderr (snd (main idle_game))
     = "FAILURE: Exceed max number of steps allowed for test. Did you forget to call end_game()?"
       ++ nl.
Proof.
  apply (never_ended idle_game). intros [| j]; reflexivity.
Defined.

Lemma ended_in_create_witness :
  fst (main ends_at_create) = 0%Z
  /\ log (snd (main ends_at_create)) = [create_called]
  /\ num_steps (snd (main ends_at_create)) = 0%Z
  /\ stderr (snd (main ends_at_create)) = "".
Proof.
  apply (ended_in_create ends_at_create). reflexivity.
Defined.

(** ** What a body of the game logic can do *)

Section Effects.

Context {libc : Libc} {G : Type}.
Implicit Types (s : state (G := G)) (gm : game (G := G)).

(** The text a call sends to [stdout]: the line of the four print functions,
    nothing for the others. *)
Definition printed {X : Type} (c : call X) : string :=
  match c with
  | c_print x => format_d x ++ nl
  | c_printb x => (if x then "true" else "false") ++ nl
  | c_print_float x => format_f x ++ nl
  | c_printstr x => x ++ nl
  | _ => ""
  end.

(** The text a body sends to [stdout], call after call. *)
Fixpoint output_of {A : Type} (p : prog A) : string :=
  match p with
  | Ret _ => ""
  | Do c k => printed c ++ output_of (k (answer c))
  end.

(** The value a body returns. *)
Fixpoint result {A : Type} (p : prog A) : A :=
  match p with
  | Ret a => a
  | Do c k => result (k (answer c))
  end.

(** The calls that neither print nor end the game: the sound and sprite
    functions and [key_pressed]. *)
Definition is_stub {X : Type} (c : call X) : bool :=
  match c with
  | c_load_sound _ | c_play_sound _ | c_loop_sound _ | c_load_image _
  | c_set_sprite_position _ _ _ | c_draw_sprite _ | c_key_pressed _ => true
  | _ => false
  end.

(** Whether a body makes such calls only. *)
Fixpoint only_stubs {A : Type} (p : prog A) : bool :=
  match p with
  | Ret _ => true
  | Do c k => is_stub c && only_stubs (k (answer c))
  end.

(** The text sent to [stdout] in pass [j]: by [global_step], then by
    [global_draw]; pass 0 stands for the call of [global_create]. *)
Definition pass_output (gm : game (G := G)) (j : nat) : string :=
  match j with
  | O => output_of (global_create gm (initial_mem gm))
  | S i =>
      let s := after_cycles gm i in
      output_of (global_step gm (mem s))
      ++ output_of (global_draw gm (mem (invoke gm h_step s)))
  end.

(** The text of [global_create] and of the first [n] passes, in order. *)
Fixpoint outputs (gm : game (G := G)) (n : nat) : string :=
  match n with
  | O => pass_output gm 0
  | S i => outputs gm i ++ pass_output gm (S i)
  end.

Lemma string_app_assoc (a b c : string) : (a ++ b) ++ c = a ++ b ++ c.
Proof. induction a as [| x a IH]; simpl; [reflexivity | now rewrite IH]. Qed.

Lemma string_app_empty_r (a : string) : a ++ "" = a.
Proof. induction a as [| x a IH]; simpl; [reflexivity | now rewrite IH]. Qed.

(** The state a call or a body leaves, given what it printed and whether it
    ended the game. *)
Definition effect (ended : bool) (text : string) s : state (G := G) :=
  mkState (game_ended s || ended) (num_steps s) (stdout s ++ text)
          (stderr s) (mem s) (log s).

Lemma effect_none s : effect false "" s = s.
Proof.
  destruct s. unfold effect. simpl.
  now rewrite orb_false_r, string_app_empty_r.
Qed.

Lemma effect_effect e1 t1 e2 t2 s :
  effect e2 t2 (effect e1 t1 s) = effect (e1 || e2) (t1 ++ t2) s.
Proof.
  unfold effect. simpl. now rewrite orb_assoc, string_app_assoc.
Qed.

Lemma exec_effect (X : Type) (c : call X) s :
  exec c s = (answer c, effect (is_end_game c) (printed c) s).
Proof.
  destruct c; simpl; try (now rewrite effect_none);
    try (unfold effect; simpl; now rewrite orb_false_r).
  - destruct x; unfold printb, effect; simpl; now rewrite orb_false_r.
  - unfold end_game, effect, set_game_ended. simpl.
    now rewrite orb_true_r, string_app_empty_r.
Qed.

Lemma run_effect : forall (A : Type) (p : prog A) s,
  run p s = (result p, effect (calls_end_game p) (output_of p) s).
Proof.
  intros A p. induction p as [a | X c k IH]; intro s; simpl.
  - now rewrite effect_none.
  - rewrite exec_effect, IH, effect_effect. reflexivity.
Qed.

Lemma only_stubs_quiet : forall (A : Type) (p : prog A),
  only_stubs p = true -> calls_end_game p = false /\ output_of p = "".
Proof.
  intros A p. induction p as [a | X c k IH]; simpl; intro H.
  - split; reflexivity.
  - apply andb_true_iff in H as [Hc Hk]. destruct (IH _ Hk) as [E O].
    rewrite E, O. destruct c; try discriminate Hc; split; reflexivity.
Qed.

Lemma invoke_stdout gm h s :
  stdout (invoke gm h s) = stdout s ++ output_of (body gm h (mem s)).
Proof.
  unfold invoke. rewrite run_effect. destruct h; reflexivity.
Qed.

Lemma invoke_mem gm h s :
  mem (invoke gm h s) = result (body gm h (mem s)).
Proof.
  unfold invoke. rewrite run_effect. destruct h; reflexivity.
Qed.

Lemma cycle_stdout gm s :
  stdout (cycle gm s)
  = stdout s ++ output_of (global_step gm (mem s))
    ++ output_of (global_draw gm (mem (invoke gm h_step s))).
Proof.
  unfold cycle. cbn [stdout set_num_steps].
  rewrite !invoke_stdout, string_app_assoc. reflexivity.
Qed.

Lemma after_cycles_stdout gm n :
  stdout (after_cycles gm n) = outputs gm n.
Proof.
  induction n as [| n IH].
  - change (stdout (invoke gm h_create (start gm)) = outputs gm 0).
    rewrite invoke_stdout. reflexivity.
  - rewrite after_cycles_S, cycle_stdout, IH. reflexivity.
Qed.

Lemma failed_stdout (z : Z) (text : string) s :
  stdout (snd (z, write_stderr text s)) = stdout s.
Proof. reflexivity. Qed.

Lemma failed_game_ended (z : Z) (text : string) s :
  game_ended (snd (z, write_stderr text s)) = game_ended s.
Proof. reflexivity. Qed.

Lemma passes_log_length n : List.length (passes_log n) = (2 * n)%nat.
Proof.
  induction n as [| n IH]; [reflexivity |].
  rewrite passes_log_S, length_app, IH. simpl. lia.
Qed.

(** X1: [main] returns 0 or 1, and it returns 0 exactly when the game logic
    calls [end_game] for the first time in [global_create] or in one of the
    passes 1 to 999. *)
Theorem exit_status_characterised gm :
  (fst (main gm) = 0%Z \/ fst (main gm) = 1%Z)
  /\ (fst (main gm) = 0%Z
      <-> exists k, (k < 1000)%nat /\ first_called_in gm k).
Proof.
  destruct (main_cases gm) as [[k [Hk [Hf E]]] | [Hclear E]].
  - split; [left; now rewrite E |]. split.
    + intros _. exists k. split; [assumption |].
      now apply first_called_iff_first_ended.
    + intros _. now rewrite E.
  - split; [right; now rewrite E |]. split.
    + rewrite E, failed_status. discriminate.
    + intros [k [Hk Hf]]. apply first_called_iff_first_ended in Hf as [_ Hset].
      rewrite (Hclear k Hk) in Hset. discriminate Hset.
Qed.

(** X2: the state [main] ends in goes with its status.  With status 0 the
    flag is set, [num_steps] is below [max_steps] and [stderr] is empty.
    With status 1 [num_steps] is [max_steps], [stderr] holds the message and
    nothing else, and the flag tells whether pass 1000 called [end_game]. *)
Theorem final_state_by_status gm :
  (fst (main gm) = 0%Z
   /\ game_ended (snd (main gm)) = true
   /\ (0 <= num_steps (snd (main gm)) < max_steps)%Z
   /\ stderr (snd (main gm)) = "")
  \/ (fst (main gm) = 1%Z
      /\ game_ended (snd (main gm)) = ends_in_pass gm 1000
      /\ num_steps (snd (main gm)) = max_steps
      /\ stderr (snd (main gm)) = failure_message).
Proof.
  destruct (main_cases gm) as [[k [Hk [[_ Hset] E]]] | [Hclear E]]; rewrite E.
  - left. rewrite failed_status, failed_state.
    rewrite Hset, after_cycles_num_steps, after_cycles_stderr.
    unfold max_steps. repeat split; lia.
  - right.
    rewrite failed_status, failed_game_ended, failed_num_steps, failed_stderr.
    pose proof (flag_after_pass gm 999) as F. rewrite F.
    rewrite (Hclear 999%nat) by lia.
    rewrite after_cycles_num_steps, after_cycles_stderr.
    repeat split.
Qed.

(** X3: a run is bounded: [main] makes one call of [global_create] and two
    calls per pass, [num_steps] counting the passes, which are at most 1000;
    so it never calls the game logic more than 2001 times. *)
Theorem calls_bounded gm :
  List.length (log (snd (main gm)))
  = (1 + 2 * Z.to_nat (num_steps (snd (main gm))))%nat
  /\ (Z.to_nat (num_steps (snd (main gm))) <= 1000)%nat
  /\ (List.length (log (snd (main gm))) <= 2001)%nat.
Proof.
  assert (exists n, (n <= 1000)%nat
                    /\ num_steps (snd (main gm)) = Z.of_nat n
                    /\ log (snd (main gm)) = create_called :: passes_log n)
    as [n [Hn [En El]]].
  { destruct (main_cases gm) as [[k [Hk [_ E]]] | [_ E]]; rewrite E.
    - exists k. rewrite failed_state, after_cycles_num_steps, after_cycles_log.
      repeat split. lia.
    - exists 1000%nat.
      rewrite failed_num_steps, failed_log, after_cycles_num_steps, after_cycles_log.
      repeat split. lia. }
  rewrite En, El, Nat2Z.id. cbn [List.length]. rewrite passes_log_length.
  repeat split; lia.
Qed.

(** X4: what a body of the game logic does to the process is fixed by the
    body alone.  The value it returns does not depend on the state it runs
    in; the state it leaves differs from that state only in the flag, set
    if the body calls [end_game], and in [stdout], extended by the lines the
    body prints; [num_steps], [stderr], the game's memory and the log are
    as before. *)
Theorem body_effect (A : Type) (p : prog A) s :
  fst (run p s) = result p
  /\ game_ended (snd (run p s)) = game_ended s || calls_end_game p
  /\ stdout (snd (run p s)) = stdout s ++ output_of p
  /\ num_steps (snd (run p s)) = num_steps s
  /\ stderr (snd (run p s)) = stderr s
  /\ mem (snd (run p s)) = mem s
  /\ log (snd (run p s)) = log s.
Proof. rewrite run_effect. repeat split. Qed.

(** X5: [stdout] at the end of a run is the text printed by
    [global_create] followed by the text of each pass made, [global_step]
    before [global_draw], in order; [main] adds nothing to it, also when it
    fails. *)
Theorem stdout_in_call_order gm :
  stdout (snd (main gm))
  = outputs gm (Z.to_nat (num_steps (snd (main gm)))).
Proof.
  destruct (main_cases gm) as [[k [Hk [_ E]]] | [_ E]]; rewrite E.
  - rewrite failed_state, after_cycles_num_steps, Nat2Z.id.
    apply after_cycles_stdout.
  - rewrite failed_stdout, failed_num_steps, after_cycles_num_steps, Nat2Z.id.
    apply after_cycles_stdout.
Qed.

(** X6: a body that calls only the sound functions, the sprite functions
    and [key_pressed], however often and with whatever arguments, leaves the
    process state exactly as it found it. *)
Theorem stubs_have_no_effect (A : Type) (p : prog A) s
  (Hstubs : only_stubs p = true) :
  snd (run p s) = s.
Proof.
  destruct (only_stubs_quiet A p Hstubs) as [E O].
  rewrite run_effect, E, O. apply effect_none.
Qed.

End Effects.

Example outputs_noisy_game :
  outputs noisy_game 1
  = "true" ++ nl ++ "0" ++ nl ++ "0.250000" ++ nl.
Proof. vm_compute. reflexivity. Qed.

(** A body of stub calls: a sound loaded, played and looped, a key tested,
    and an image loaded, placed and drawn. *)
Definition stub_body : prog bool :=
  Do (c_load_sound "tune.ogg") (fun h =>
  Do (c_play_sound h) (fun _ =>
  Do (c_loop_sound 4096%Z) (fun _ =>
  Do (c_key_pressed (-1)) (fun pressed =>
  Do (c_load_image "ship.png") (fun i =>
  Do (c_set_sprite_position i "1.500000" "-2.000000") (fun _ =>
  Do (c_draw_sprite i) (fun _ => Ret pressed))))))).

Lemma stubs_have_no_effect_witness :
  only_stubs stub_body = true
  /\ snd (run stub_body (entry noisy_game)) = entry noisy_game.
Proof.
  split; [reflexivity |].
  apply (stubs_have_no_effect bool stub_body (entry noisy_game)). reflexivity.
Defined.

Lemma exit_status_characterised_witness :
  fst (main (ends_at_step 5)) = 0%Z.
Proof.
  apply (proj2 (exit_status_characterised (ends_at_step 5))).
  exists 5%nat. split; [lia |]. split.
  - intros j Hj.
    do 5 (destruct j as [| j]; [vm_compute; reflexivity |]). lia.
  - vm_compute. reflexivity.
Defined.

(** ** Which code runs, and in which order *)

Section HookOrder.

Context {libc : Libc} {G : Type}.
Implicit Types (s : state (G := G)) (gm : game (G := G)).

(** The game's memory after the body of [global_create] has run once on the
    initial memory and then, [n] times over, the body of [global_step]
    followed by the body of [global_draw]. *)
Fixpoint mem_after (gm : game (G := G)) (n : nat) : G :=
  match n with
  | O => result (global_create gm (initial_mem gm))
  | S i => result (global_draw gm (result (global_step gm (mem_after gm i))))
  end.

(** What those bodies print, in that order. *)
Fixpoint text_after (gm : game (G := G)) (n : nat) : string :=
  match n with
  | O => output_of (global_create gm (initial_mem gm))
  | S i =>
      text_after gm i
      ++ output_of (global_step gm (mem_after gm i))
      ++ output_of (global_draw gm (result (global_step gm (mem_after gm i))))
  end.

(** Whether one of those bodies calls [end_game]. *)
Fixpoint flag_after (gm : game (G := G)) (n : nat) : bool :=
  match n with
  | O => calls_end_game (global_create gm (initial_mem gm))
  | S i =>
      flag_after gm i
      || calls_end_game (global_step gm (mem_after gm i))
      || calls_end_game (global_draw gm (result (global_step gm (mem_after gm i))))
  end.

(** The state one pass leaves, from the bodies of the two entry points: the
    body of [global_step] runs on the memory of [s], the body of
    [global_draw] on the memory that one leaves, and [num_steps] goes up by
    one after both. *)
Definition pass_from (gm : game (G := G)) s : state (G := G) :=
  let on_step := global_step gm (mem s) in
  let on_draw := global_draw gm (result on_step) in
  mkState (game_ended s || calls_end_game on_step || calls_end_game on_draw)
          (num_steps s + 1)
          (stdout s ++ output_of on_step ++ output_of on_draw)
          (stderr s)
          (result on_draw)
          (log s ++ [step_called (num_steps s); draw_called (num_steps s)]).

(** The state after [global_create] and [n] passes, from the bodies run. *)
Definition state_after (gm : game (G := G)) (n : nat) : state (G := G) :=
  mkState (flag_after gm n) (Z.of_nat n) (text_after gm n) ""
          (mem_after gm n) (create_called :: passes_log n).

Lemma invoke_state gm h s :
  invoke gm h s
  = mkState (game_ended s || calls_end_game (body gm h (mem s)))
            (num_steps s)
            (stdout s ++ output_of (body gm h (mem s)))
            (stderr s)
            (result (body gm h (mem s)))
            (log s ++ [entry_of h (num_steps s)]).
Proof.
  unfold invoke. rewrite run_effect. destruct h; reflexivity.
Qed.

Lemma cycle_state gm s : cycle gm s = pass_from gm s.
Proof.
  unfold cycle, pass_from. rewrite !invoke_state.
  cbn [game_ended num_steps stdout stderr mem log set_num_steps body entry_of].
  now rewrite string_app_assoc, <- app_assoc.
Qed.

Lemma entry_state gm : entry gm = state_after gm 0.
Proof.
  unfold entry. rewrite invoke_state. reflexivity.
Qed.

Lemma after_cycles_state gm n : after_cycles gm n = state_after gm n.
Proof.
  induction n as [| n IH].
  - apply entry_state.
  - rewrite after_cycles_S, IH, cycle_state.
    unfold pass_from, state_after.
    cbn [game_ended num_steps stdout stderr mem log mem_after text_after flag_after].
    rewrite passes_log_S. f_equal. lia.
Qed.

Lemma after_cycles_mem gm n : mem (after_cycles gm n) = mem_after gm n.
Proof. now rewrite after_cycles_state. Qed.

Lemma after_cycles_text gm n : stdout (after_cycles gm n) = text_after gm n.
Proof. now rewrite after_cycles_state. Qed.

Lemma after_cycles_flag gm n : game_ended (after_cycles gm n) = flag_after gm n.
Proof. now rewrite after_cycles_state. Qed.

Lemma failed_mem (z : Z) (text : string) s :
  mem (snd (z, write_stderr text s)) = mem s.
Proof. reflexivity. Qed.

(** [main] ends after [global_create] and some number of passes, at most
    1000, in the state those leave, but for the message on [stderr]. *)
Lemma main_ends_after gm :
  exists n, (n <= 1000)%nat
    /\ num_steps (snd (main gm)) = Z.of_nat n
    /\ log (snd (main gm)) = create_called :: passes_log n
    /\ mem (snd (main gm)) = mem_after gm n
    /\ stdout (snd (main gm)) = text_after gm n
    /\ game_ended (snd (main gm)) = flag_after gm n.
Proof.
  destruct (main_cases gm) as [[k [Hk [_ E]]] | [_ E]]; rewrite E.
  - exists k. rewrite failed_state.
    rewrite after_cycles_num_steps, after_cycles_log, after_cycles_mem,
      after_cycles_text, after_cycles_flag.
    split; [lia | repeat split].
  - exists 1000%nat.
    rewrite failed_num_steps, failed_log, failed_mem, failed_stdout,
      failed_game_ended.
    rewrite after_cycles_num_steps, after_cycles_log, after_cycles_mem,
      after_cycles_text, after_cycles_flag.
    split; [lia | repeat split].
Qed.

(** C5: in every run the body of [global_create] is what runs first, and it
    runs once.  When the loop is reached, the memory, [stdout] and the flag
    are what that body makes of the initial memory, of nothing printed and
    of a clear flag, and the log holds that one call.  At the end of the
    run they are what the body of [global_create], run once, and after it
    only bodies of [global_step] and [global_draw] have made of them, and
    the log is the call of [global_create] followed by calls of
    [global_step] and [global_draw] only. *)
Theorem create_once_first gm :
  entry gm
  = mkState (calls_end_game (global_create gm (initial_mem gm))) 0
            (output_of (global_create gm (initial_mem gm))) ""
            (result (global_create gm (initial_mem gm))) [create_called]
  /\ exists n rest,
       log (snd (main gm)) = create_called :: rest
       /\ ~ In create_called rest
       /\ rest = passes_log n
       /\ mem (snd (main gm)) = mem_after gm n
       /\ stdout (snd (main gm)) = text_after gm n
       /\ game_ended (snd (main gm)) = flag_after gm n.
Proof.
  split; [apply entry_state |].
  destruct (main_ends_after gm) as [n [_ [_ [El [Em [Et Ef]]]]]].
  exists n, (passes_log n).
  split; [exact El |]. split; [apply passes_log_no_create |].
  split; [reflexivity |]. split; [exact Em |]. split; [exact Et | exact Ef].
Qed.

(** C6: [num_steps] is 0 when the loop is reached.  A pass runs the body of
    [global_step] on the memory it finds, then the body of [global_draw] on
    the memory that one leaves, what the first prints coming before what
    the second prints, both called while [num_steps] is as it was; then
    [num_steps] goes up by one.  So after [n] passes it is [n], and [main]
    ends after some [n] passes with [num_steps = n], the log of [n] passes,
    and the memory and [stdout] that [n] such passes leave. *)
Theorem steps_counted gm :
  num_steps (entry gm) = 0%Z
  /\ (forall s,
        cycle gm s
        = mkState
            (game_ended s
             || calls_end_game (global_step gm (mem s))
             || calls_end_game
                  (global_draw gm (result (global_step gm (mem s)))))
            (num_steps s + 1)
            (stdout s ++ output_of (global_step gm (mem s))
             ++ output_of (global_draw gm (result (global_step gm (mem s)))))
            (stderr s)
            (result (global_draw gm (result (global_step gm (mem s)))))
            (log s ++ [step_called (num_steps s); draw_called (num_steps s)]))
  /\ (forall n, num_steps (after_cycles gm n) = Z.of_nat n)
  /\ (exists n,
        (snd (main gm) = after_cycles gm n
         \/ snd (main gm) = write_stderr failure_message (after_cycles gm n))
        /\ num_steps (snd (main gm)) = Z.of_nat n
        /\ log (snd (main gm)) = create_called :: passes_log n
        /\ mem (snd (main gm)) = mem_after gm n
        /\ stdout (snd (main gm)) = text_after gm n).
Proof.
  split; [reflexivity |].
  split; [intro s; apply cycle_state |].
  split; [apply after_cycles_num_steps |].
  destruct (main_cases gm) as [[k [_ [_ E]]] | [_ E]]; rewrite E.
  - exists k. rewrite failed_state. split; [now left |].
    rewrite after_cycles_num_steps, after_cycles_log, after_cycles_mem,
      after_cycles_text.
    repeat split.
  - exists 1000%nat.
    rewrite failed_num_steps, failed_log, failed_mem, failed_stdout, failed_state.
    split; [right; reflexivity |].
    rewrite after_cycles_num_steps, after_cycles_log, after_cycles_mem,
      after_cycles_text.
    repeat split.
Qed.

End HookOrder.

(** The order shows on a game whose three bodies differ: [global_create]
    prints [true], and each pass prints the step number before the text of
    [global_draw]. *)
Example hook_order_noisy_game :
  mem_after noisy_game 3 = 3%Z
  /\ text_after noisy_game 1 = "true" ++ nl ++ "0" ++ nl ++ "0.250000" ++ nl
  /\ stdout (snd (main noisy_game)) = text_after noisy_game 3
  /\ mem (snd (main noisy_game)) = mem_after noisy_game 3.
Proof. vm_compute. repeat split. Qed.
